(** * importing-eeg-data.py: the channel pipeline of the EEG import script

    The script loads an EDF recording, renames its channels with
    [lambda s: s.strip(".")], builds the "easycap-M1" montage, drops the
    channels "T9" and "T10", assigns the montage with [match_case=False]
    and re-references to the average.

    Channel labels of an EDF header are 8-bit characters, so a Python [str]
    label is a [string] of [ascii] here. *)

From Stdlib Require Import Ascii String.
From stdpp Require Import base decidable option list strings.

Local Open Scope string_scope.

(** ** Python's [str.strip] family *)

Module PyStr.

(** [c in chars] for a one-character [c]. *)
Fixpoint contains (chars : string) (c : ascii) : bool :=
  match chars with
  | EmptyString => false
  | String d rest => Ascii.eqb c d || contains rest c
  end.

(** [s.lstrip(chars)]: the index [i] walks right while [s[i] in chars]. *)
Fixpoint lstrip (chars s : string) : string :=
  match s with
  | EmptyString => EmptyString
  | String c s' => if contains chars c then lstrip chars s' else s
  end.

(** [s.rstrip(chars)]: the index [j] walks left while [s[j] in chars]. *)
Fixpoint rstrip (chars s : string) : string :=
  match s with
  | EmptyString => EmptyString
  | String c s' =>
      match rstrip chars s' with
      | EmptyString =>
          if contains chars c then EmptyString else String c EmptyString
      | String _ _ as kept => String c kept
      end
  end.

(** [s.strip(chars)]: the left index is fixed first, then the right one
    walks down to it, and the slice between them is returned. *)
Definition strip (chars s : string) : string :=
  rstrip chars (lstrip chars s).

(** [s[:1] in chars] and [s[-1:] in chars], false on the empty string. *)
Definition starts_in (chars s : string) : bool :=
  match s with
  | EmptyString => false
  | String c _ => contains chars c
  end.

Fixpoint ends_in (chars s : string) : bool :=
  match s with
  | EmptyString => false
  | String c s' =>
      match s' with
      | EmptyString => contains chars c
      | String _ _ => ends_in chars s'
      end
  end.

End PyStr.

(** ** The script's renaming function *)

(** [lambda s: s.strip(".")] *)
Definition rename_mapping (s : string) : string := PyStr.strip "." s.

Definition starts_with_dot (s : string) : bool := PyStr.starts_in "." s.
Definition ends_with_dot (s : string) : bool := PyStr.ends_in "." s.

(** [n] dots in a row. *)
Fixpoint dots (n : nat) : string :=
  match n with
  | O => EmptyString
  | S k => String "." (dots k)
  end.

(** ** The transformation as the specification words it *)

Module Spec.

Definition is_dot (c : ascii) : bool := Ascii.eqb c ".".

Fixpoint drop_dots (l : list ascii) : list ascii :=
  match l with
  | [] => []
  | c :: l' => if is_dot c then drop_dots l' else l
  end.

(** Strips trailing "." characters: the dots at the end of the name are
    removed and every other character stays. *)
Definition strip_trailing_dots (s : string) : string :=
  string_of_list_ascii (rev (drop_dots (rev (list_ascii_of_string s)))).

(** Strips leading "." characters. *)
Definition strip_leading_dots (s : string) : string :=
  string_of_list_ascii (drop_dots (list_ascii_of_string s)).

(** The capital letters of the 8-bit character set, each with its small
    letter 32 places further on: "A" to "Z" (65 to 90) and the accented
    capitals 192 to 222, the multiplication sign 215 left out. *)
Definition letter_pairs : list (ascii * ascii) := Eval cbv in
  map (fun n => (ascii_of_nat n, ascii_of_nat (n + 32)))
      (seq 65 26 ++ seq 192 23 ++ seq 216 7)%list.

(** Two characters that are the same, or the capital and the small form of
    one letter. *)
Definition same_letter (a b : ascii) : bool :=
  Ascii.eqb a b ||
  existsb (fun p => (Ascii.eqb a (fst p) && Ascii.eqb b (snd p)) ||
                    (Ascii.eqb b (fst p) && Ascii.eqb a (snd p)))
          letter_pairs.

(** Two labels that differ at most in letter case. *)
Fixpoint same_up_to_case (a b : string) : bool :=
  match a, b with
  | EmptyString, EmptyString => true
  | String x a', String y b' => same_letter x y && same_up_to_case a' b'
  | _, _ => false
  end.

(** Labels of which no two differ only in letter case. *)
Fixpoint distinct_up_to_case (labels : list string) : bool :=
  match labels with
  | [] => true
  | l :: rest =>
      forallb (fun l' => negb (same_up_to_case l l')) rest &&
      distinct_up_to_case rest
  end.

End Spec.

(** ** Exceptions and results *)

(** The exceptions the library calls raise, as far as the script can see
    them, and Python's [NameError] for a global that is not bound. *)
Inductive Error : Type :=
  | ReadError (fname : string)
  | DuplicateNames
  | UnknownMontage (kind : string)
  | MissingChannels (names : list string)
  | UnmatchedChannels (names : list string)
  | NameError (var : string).

Inductive result (A : Type) : Type :=
  | Ok (a : A)
  | Raise (e : Error).

Arguments Ok {A} a.
Arguments Raise {A} e.

(** An exception ends the computation it is raised in. *)
#[global] Instance result_bind : MBind result := fun A B k r =>
  match r with
  | Ok a => k a
  | Raise e => Raise e
  end.

Definition is_ok {A : Type} (r : result A) : bool :=
  match r with
  | Ok _ => true
  | Raise _ => false
  end.

(** [str.lower] on one 8-bit character: the capitals "A" to "Z" and the
    accented capitals of the upper half move 32 places on, every other
    character stays. *)
Definition lower_char (c : ascii) : ascii :=
  let n := nat_of_ascii c in
  if ((65 <=? n)%nat && (n <=? 90)%nat) ||
     ((192 <=? n)%nat && (n <=? 222)%nat && negb (n =? 215)%nat)
  then ascii_of_nat (n + 32) else c.

(** Every 8-bit character. *)
Definition all_ascii : list ascii := Eval cbv in map ascii_of_nat (seq 0 256).

Fixpoint lower (s : string) : string :=
  match s with
  | EmptyString => EmptyString
  | String c s' => String (lower_char c) (lower s')
  end.

(** ** The recording and the library calls *)

Section Model.

(** The sample sequence of one channel and a 3D electrode position are
    floating-point data the script never looks into. *)
Variables (signal position : Type).

Record Channel : Type := mkChannel {
  ch_name : string;
  ch_data : signal;
  ch_loc : option position
}.

Inductive Reference : Type := OriginalReference | AverageReference.

Record Raw : Type := mkRaw {
  chs : list Channel;
  ref_scheme : Reference
}.

Definition ch_names (raw : Raw) : list string := ch_name <$> chs raw.

(** A montage: electrode labels with their positions, in catalog order. *)
Definition Montage : Type := list (string * position).

Definition montage_names (m : Montage) : list string := fst <$> m.

Definition set_name (new : string) (c : Channel) : Channel :=
  mkChannel new (ch_data c) (ch_loc c).

Definition set_data (new : signal) (c : Channel) : Channel :=
  mkChannel (ch_name c) new (ch_loc c).

Definition set_loc (new : position) (c : Channel) : Channel :=
  mkChannel (ch_name c) (ch_data c) (Some new).

(** Modelled from the spec: the body of [Raw.rename_channels] is in the
    mne library, which is not part of the repository.  The mapping is
    applied to every channel name; uniqueness of the labels is the
    library's responsibility, so a renaming that makes two labels equal is
    refused. *)
Definition rename_channels (mapping : string -> string) (raw : Raw)
  : result Raw :=
  if decide (NoDup (mapping <$> ch_names raw))
  then Ok (mkRaw ((fun c => set_name (mapping (ch_name c)) c) <$> chs raw)
                 (ref_scheme raw))
  else Raise DuplicateNames.

(** Modelled from the spec: the body of [Raw.drop_channels] is in the mne
    library.  The named channels are removed; the call fails if one of the
    names is absent. *)
Definition drop_channels (names : list string) (raw : Raw) : result Raw :=
  match filter (fun n => n ∉ ch_names raw) names with
  | [] => Ok (mkRaw (filter (fun c => ch_name c ∉ names) (chs raw))
                    (ref_scheme raw))
  | missing => Raise (MissingChannels missing)
  end.

(** The montage entry a channel label is bound to. *)
Definition same_label (match_case : bool) (a b : string) : bool :=
  if match_case then bool_decide (a = b)
  else bool_decide (lower a = lower b).

Fixpoint find_position (match_case : bool) (m : Montage) (name : string)
  : option position :=
  match m with
  | [] => None
  | (label, pos) :: m' =>
      if same_label match_case label name then Some pos
      else find_position match_case m' name
  end.

(** Modelled from the spec: the body of [Raw.set_montage] is in the mne
    library.  Every channel label is bound to the position of the montage
    entry with that label, compared without regard to letter case unless
    [match_case]; the call fails if a channel cannot be matched. *)
Definition set_montage (m : Montage) (match_case : bool) (raw : Raw)
  : result Raw :=
  match filter (fun n => find_position match_case m n = None)
               (ch_names raw) with
  | [] => Ok (mkRaw ((fun c =>
                        match find_position match_case m (ch_name c) with
                        | Some pos => set_loc pos c
                        | None => c
                        end) <$> chs raw)
                    (ref_scheme raw))
  | unmatched => Raise (UnmatchedChannels unmatched)
  end.

(** The arithmetic of the average reference, on floating-point samples:
    [minus_average all x] is the signal [x] minus the per-sample mean of
    the signals [all]. *)
Variable minus_average : list signal -> signal -> signal.

(** Modelled from the spec: the body of [Raw.set_eeg_reference] is in the
    mne library; this is the call with ["average"].  Every channel's
    signal is recomputed relative to the average across all channels. *)
Definition set_eeg_reference (raw : Raw) : result Raw :=
  let all := ch_data <$> chs raw in
  Ok (mkRaw ((fun c => set_data (minus_average all (ch_data c)) c)
               <$> chs raw)
            AverageReference).

(** The files the process can read as EDF, and the catalog of built-in
    montages. *)
Variable files : string -> option Raw.
Variable catalog : string -> option Montage.

(** Modelled from the spec: [mne.io.read_raw_edf(fname, preload=True)]
    fails if the file is missing, malformed or unreadable. *)
Definition read_raw_edf (fname : string) : result Raw :=
  match files fname with
  | Some raw => Ok raw
  | None => Raise (ReadError fname)
  end.

(** Modelled from the spec: [mne.channels.make_standard_montage(kind)]
    fails if the name is unknown. *)
Definition make_standard_montage (kind : string) : result Montage :=
  match catalog kind with
  | Some m => Ok m
  | None => Raise (UnknownMontage kind)
  end.

(** ** The script *)

(** The module's globals. *)
Record Env : Type := mkEnv {
  raw : option Raw;
  montage : option Montage
}.

Definition initial : Env := mkEnv None None.

(** The statement forms of the module body. *)
Inductive Stmt : Type :=
  | ReadRawEdf (fname : string)
  | RenameChannels (mapping : string -> string)
  | MakeStandardMontage (kind : string)
  | DropChannels (names : list string)
  | SetMontage (match_case : bool)
  | SetEegReference.

Definition get_raw (env : Env) : result Raw :=
  match raw env with
  | Some r => Ok r
  | None => Raise (NameError "raw")
  end.

Definition get_montage (env : Env) : result Montage :=
  match montage env with
  | Some m => Ok m
  | None => Raise (NameError "montage")
  end.

(** A method call on [raw] changes the one object the global names. *)
Definition exec (s : Stmt) (env : Env) : result Env :=
  match s with
  | ReadRawEdf fname =>
      r ← read_raw_edf fname; Ok (mkEnv (Some r) (montage env))
  | RenameChannels mapping =>
      r ← get_raw env;
      r' ← rename_channels mapping r; Ok (mkEnv (Some r') (montage env))
  | MakeStandardMontage kind =>
      m ← make_standard_montage kind; Ok (mkEnv (raw env) (Some m))
  | DropChannels names =>
      r ← get_raw env;
      r' ← drop_channels names r; Ok (mkEnv (Some r') (montage env))
  | SetMontage match_case =>
      r ← get_raw env;
      m ← get_montage env;
      r' ← set_montage m match_case r; Ok (mkEnv (Some r') (montage env))
  | SetEegReference =>
      r ← get_raw env;
      r' ← set_eeg_reference r; Ok (mkEnv (Some r') (montage env))
  end.

(** How a run ends: every statement done, or the exception of statement
    number [pc] with the globals as the statements before it left them. *)
Inductive Outcome : Type :=
  | Finished (env : Env)
  | Failed (pc : nat) (e : Error) (env : Env).

Fixpoint run_from (pc : nat) (prog : list Stmt) (env : Env) : Outcome :=
  match prog with
  | [] => Finished env
  | s :: rest =>
      match exec s env with
      | Ok env' => run_from (S pc) rest env'
      | Raise e => Failed pc e env
      end
  end.

Definition run (prog : list Stmt) (env : Env) : Outcome :=
  run_from 0 prog env.

(** Lines 5 to 13 of importing-eeg-data.py. *)
Definition script : list Stmt :=
  [ ReadRawEdf "S001R04.edf";
    RenameChannels rename_mapping;
    MakeStandardMontage "easycap-M1";
    DropChannels ["T9"; "T10"];
    SetMontage false;
    SetEegReference ].

(** The statements of the script that change the recording. *)
Definition mutations : list Stmt :=
  [ RenameChannels rename_mapping;
    DropChannels ["T9"; "T10"];
    SetMontage false;
    SetEegReference ].

End Model.

Arguments mkChannel {signal position}.
Arguments ch_name {signal position}.
Arguments ch_data {signal position}.
Arguments ch_loc {signal position}.
Arguments mkRaw {signal position}.
Arguments chs {signal position}.
Arguments ref_scheme {signal position}.
Arguments ch_names {signal position}.
Arguments montage_names {position}.
Arguments set_name {signal position}.
Arguments set_data {signal position}.
Arguments set_loc {signal position}.
Arguments rename_channels {signal position}.
Arguments drop_channels {signal position}.
Arguments find_position {position}.
Arguments set_montage {signal position}.
Arguments set_eeg_reference {signal position}.
Arguments read_raw_edf {signal position}.
Arguments make_standard_montage {position}.
Arguments mkEnv {signal position}.
Arguments raw {signal position}.
Arguments montage {signal position}.
Arguments initial {signal position}.
Arguments get_raw {signal position}.
Arguments get_montage {signal position}.
Arguments exec {signal position}.
Arguments Finished {signal position}.
Arguments Failed {signal position}.
Arguments run_from {signal position}.
Arguments run {signal position}.

(** ** A small recording to run the script on *)

Module Example.

(** Samples are left out; positions are in millimetres. *)
Definition signal : Type := unit.
Definition position : Type := (Z * Z * Z)%type.

Definition channel (name : string) : Channel signal position :=
  mkChannel name tt None.

(** Labels padded with dots to four characters, as in the EDF header. *)
Definition recording : Raw signal position :=
  mkRaw [channel "Fc5."; channel "Cz.."; channel "T9.."; channel "T10.";
         channel "Fp1."]
        OriginalReference.

(** The same header without the channel "T10". *)
Definition short_recording : Raw signal position :=
  mkRaw [channel "Fc5."; channel "Cz.."; channel "T9.."] OriginalReference.

Definition easycap : Montage position :=
  [ ("Fp1", (-29, 84, -7)%Z);
    ("FC5", (-77, 33, 22)%Z);
    ("Cz", (0, 0, 95)%Z);
    ("T9", (-86, 0, -47)%Z);
    ("T10", (86, 0, -47)%Z) ].

Definition minus_average (all : list signal) (x : signal) : signal := tt.

Definition files (fname : string) : option (Raw signal position) :=
  if bool_decide (fname = "S001R04.edf") then Some recording else None.

Definition short_files (fname : string) : option (Raw signal position) :=
  if bool_decide (fname = "S001R04.edf") then Some short_recording
  else None.

Definition catalog (kind : string) : option (Montage position) :=
  if bool_decide (kind = "easycap-M1") then Some easycap else None.

(** The recording after the rename step. *)
Definition renamed : Raw signal position :=
  mkRaw [channel "Fc5"; channel "Cz"; channel "T9"; channel "T10";
         channel "Fp1"]
        OriginalReference.

(** The recording after the drop step, and after the montage step. *)
Definition dropped : Raw signal position :=
  mkRaw [channel "Fc5"; channel "Cz"; channel "Fp1"] OriginalReference.

Definition located : Raw signal position :=
  mkRaw [ mkChannel "Fc5" tt (Some (-77, 33, 22)%Z);
          mkChannel "Cz" tt (Some (0, 0, 95)%Z);
          mkChannel "Fp1" tt (Some (-29, 84, -7)%Z) ]
        OriginalReference.

(** The globals when the drop step is reached on [short_files]. *)
Definition before_drop : Env signal position :=
  mkEnv (Some (mkRaw [channel "Fc5"; channel "Cz"; channel "T9"]
                     OriginalReference))
        (Some easycap).

(** The globals after a complete run on [files]. *)
Definition final : Env signal position :=
  mkEnv (Some (mkRaw [ mkChannel "Fc5" tt (Some (-77, 33, 22)%Z);
                       mkChannel "Cz" tt (Some (0, 0, 95)%Z);
                       mkChannel "Fp1" tt (Some (-29, 84, -7)%Z) ]
                     AverageReference))
        (Some easycap).

End Example.

(** ** Facts about [lstrip], [rstrip] and [strip] *)

Section StripFacts.

Import PyStr.
Variable chars : string.

Lemma lstrip_starts s : starts_in chars (lstrip chars s) = false.
Proof.
  induction s as [|c s IH]; simpl; [reflexivity|].
  destruct (contains chars c) eqn:Hc; [exact IH|].
  simpl. exact Hc.
Qed.

Lemma lstrip_fixed s : starts_in chars s = false -> lstrip chars s = s.
Proof.
  destruct s as [|c s]; simpl; [reflexivity|].
  intros ->. reflexivity.
Qed.

Lemma rstrip_ends s : ends_in chars (rstrip chars s) = false.
Proof.
  induction s as [|c s IH]; simpl; [reflexivity|].
  destruct (rstrip chars s) as [|d kept] eqn:Hr.
  - destruct (contains chars c) eqn:Hc; simpl; [reflexivity|exact Hc].
  - exact IH.
Qed.

Lemma rstrip_fixed s : ends_in chars s = false -> rstrip chars s = s.
Proof.
  induction s as [|c s IH]; simpl; [reflexivity|].
  destruct s as [|d s'].
  - intros ->. reflexivity.
  - intros H. rewrite (IH H). reflexivity.
Qed.

Lemma rstrip_starts s :
  starts_in chars s = false -> starts_in chars (rstrip chars s) = false.
Proof.
  destruct s as [|c s]; simpl; [reflexivity|].
  intros Hc. destruct (rstrip chars s); [rewrite Hc|]; simpl; auto.
Qed.

Lemma strip_starts s : starts_in chars (strip chars s) = false.
Proof. apply rstrip_starts, lstrip_starts. Qed.

Lemma strip_ends s : ends_in chars (strip chars s) = false.
Proof. apply rstrip_ends. Qed.

Lemma strip_fixed s :
  starts_in chars s = false -> ends_in chars s = false -> strip chars s = s.
Proof.
  intros Hs He. unfold strip. rewrite (lstrip_fixed s Hs).
  apply rstrip_fixed, He.
Qed.

Lemma strip_strip s : strip chars (strip chars s) = strip chars s.
Proof. apply strip_fixed; [apply strip_starts | apply strip_ends]. Qed.

End StripFacts.

(** ** The renaming function on dotted labels *)

Section DotFacts.

Import PyStr.

Lemma starts_in_app chars c s t :
  starts_in chars (String c s ++ t) = starts_in chars (String c s).
Proof. reflexivity. Qed.

Lemma lstrip_dots n t : lstrip "." (dots n ++ t) = lstrip "." t.
Proof. induction n as [|n IH]; simpl; [reflexivity | exact IH]. Qed.

Lemma lstrip_only_dots m : lstrip "." (dots m) = "".
Proof. induction m as [|m IH]; simpl; [reflexivity | exact IH]. Qed.

Lemma rstrip_only_dots m : rstrip "." (dots m) = "".
Proof. induction m as [|m IH]; simpl; [reflexivity | now rewrite IH]. Qed.

Lemma rstrip_dots m t : rstrip "." (t ++ dots m) = rstrip "." t.
Proof.
  induction t as [|c t IH]; simpl.
  - apply rstrip_only_dots.
  - now rewrite IH.
Qed.

Lemma strip_dotted n m core :
  starts_with_dot core = false -> ends_with_dot core = false ->
  rename_mapping (dots n ++ core ++ dots m) = core.
Proof.
  unfold rename_mapping, strip, starts_with_dot, ends_with_dot.
  intros Hs He. rewrite lstrip_dots.
  destruct core as [|c core].
  - (* a label of dots only: everything goes *)
    change ("" ++ dots m) with (dots m). now rewrite lstrip_only_dots.
  - rewrite lstrip_fixed by (rewrite starts_in_app; exact Hs).
    rewrite rstrip_dots. now apply rstrip_fixed.
Qed.

End DotFacts.

(** ** The renaming function against the specification's wording *)

Section SpecFacts.

Import PyStr Spec.

Lemma contains_dot c : contains "." c = is_dot c.
Proof. unfold is_dot. simpl. apply orb_false_r. Qed.

Lemma lstrip_ascii s :
  list_ascii_of_string (lstrip "." s) = drop_dots (list_ascii_of_string s).
Proof.
  induction s as [|c s IH]; [reflexivity|].
  cbn [lstrip list_ascii_of_string drop_dots]. rewrite contains_dot.
  destruct (is_dot c); [exact IH | reflexivity].
Qed.

Lemma drop_dots_snoc l c :
  drop_dots (l ++ [c])%list =
  match drop_dots l with
  | [] => if is_dot c then [] else [c]
  | (_ :: _) as kept => (kept ++ [c])%list
  end.
Proof.
  induction l as [|d l IH]; simpl.
  - destruct (is_dot c); reflexivity.
  - destruct (is_dot d); [exact IH | reflexivity].
Qed.

Lemma rstrip_ascii s :
  list_ascii_of_string (rstrip "." s) =
  rev (drop_dots (rev (list_ascii_of_string s))).
Proof.
  induction s as [|c s IH]; [reflexivity|].
  cbn [rstrip list_ascii_of_string rev]. rewrite drop_dots_snoc, contains_dot.
  destruct (rstrip "." s) as [|x y];
    destruct (drop_dots (rev (list_ascii_of_string s))) as [|a kept].
  - destruct (is_dot c); reflexivity.
  - apply (f_equal length) in IH. simpl in IH.
    rewrite length_app in IH. simpl in IH. lia.
  - discriminate IH.
  - rewrite rev_app_distr. simpl in *. now rewrite IH.
Qed.

Lemma lstrip_spec s : lstrip "." s = strip_leading_dots s.
Proof.
  unfold strip_leading_dots. rewrite <- lstrip_ascii.
  now rewrite string_of_list_ascii_of_string.
Qed.

Lemma rstrip_spec s : rstrip "." s = strip_trailing_dots s.
Proof.
  unfold strip_trailing_dots. rewrite <- rstrip_ascii.
  now rewrite string_of_list_ascii_of_string.
Qed.

End SpecFacts.

(** C1, as the code has it: for every channel label the rename step's
    transformation is the function that strips "." characters from both
    ends of the label, leading dots first and trailing dots after; on every
    label that does not begin with "." it equals the function that strips
    trailing "." characters. *)
Theorem rename_mapping_strips_both_ends (s : string) :
  rename_mapping s = Spec.strip_trailing_dots (Spec.strip_leading_dots s) /\
  (starts_with_dot s = false -> rename_mapping s = Spec.strip_trailing_dots s).
Proof.
  unfold rename_mapping, PyStr.strip. split.
  - now rewrite lstrip_spec, rstrip_spec.
  - intros Hs. rewrite lstrip_fixed by exact Hs. apply rstrip_spec.
Qed.

Lemma rename_mapping_strips_both_ends_witness :
  starts_with_dot "Fp1." = false /\
  rename_mapping "Fp1." = Spec.strip_trailing_dots "Fp1.".
Proof.
  split; [reflexivity|].
  apply (proj2 (rename_mapping_strips_both_ends "Fp1.")). reflexivity.
Defined.

(** C1 as stated fails: on the label ".Fp1" the transformation removes the
    leading dot, while stripping trailing dots leaves the label as it is. *)
Lemma rename_mapping_not_trailing_only :
  rename_mapping ".Fp1" <> Spec.strip_trailing_dots ".Fp1".
Proof. vm_compute. discriminate. Qed.

(** C9: the transformation removes leading dots as well as trailing ones: a
    label made of leading dots, a core with no dot at either end, and
    trailing dots is mapped to the core, and a label with no dot at either
    end is mapped to itself. *)
Theorem rename_mapping_removes_leading_dots (n m : nat) (core : string) :
  starts_with_dot core = false -> ends_with_dot core = false ->
  rename_mapping (dots n ++ core ++ dots m) = core /\
  rename_mapping core = core.
Proof.
  intros Hs He. split.
  - now apply strip_dotted.
  - now apply strip_fixed.
Qed.

Lemma rename_mapping_removes_leading_dots_witness :
  rename_mapping "..Fp1." = "Fp1" /\ rename_mapping "Fp1" = "Fp1".
Proof.
  apply (rename_mapping_removes_leading_dots 2 1 "Fp1"); reflexivity.
Defined.

(** C10: the transformation is idempotent: stripping the dots of a label
    twice gives what stripping them once gives. *)
Theorem rename_mapping_idempotent (s : string) :
  rename_mapping (rename_mapping s) = rename_mapping s.
Proof. apply strip_strip. Qed.

(** ** The channel list under the library calls *)

Section ChannelFacts.

Context {signal position : Type}.
Implicit Types (raw : Raw signal position) (c : Channel signal position).
Implicit Types (m : Montage position) (names : list string).

Lemma filter_nil_Forall {A} (P : A -> Prop) `{!forall x, Decision (P x)}
    (l : list A) :
  filter P l = [] <-> Forall (fun x => ~ P x) l.
Proof.
  induction l as [|x l IH]; [by rewrite filter_nil|].
  rewrite filter_cons, Forall_cons. case_decide; [|tauto].
  split; [discriminate | tauto].
Qed.

Lemma filter_Forall_id {A} (P : A -> Prop) `{!forall x, Decision (P x)}
    (l : list A) :
  Forall P l -> filter P l = l.
Proof.
  induction 1 as [|x l Hx _ IH]; [reflexivity|].
  rewrite filter_cons_True by exact Hx. now f_equal.
Qed.

Lemma filter_fmap_names names (l : list (Channel signal position)) :
  ch_name <$> filter (fun c => ch_name c ∉ names) l =
  filter (fun n => n ∉ names) (ch_name <$> l).
Proof.
  induction l as [|c l IH]; [reflexivity|].
  rewrite fmap_cons, !filter_cons. case_decide; [|exact IH].
  rewrite fmap_cons. now f_equal.
Qed.

Lemma rename_channels_Ok mapping raw raw' :
  rename_channels mapping raw = Ok raw' ->
  ch_names raw' = mapping <$> ch_names raw /\ NoDup (ch_names raw').
Proof.
  unfold rename_channels. case_decide as Hnd; [|discriminate].
  intros [= <-]. unfold ch_names in *. simpl.
  rewrite <- !list_fmap_compose in *. split; [reflexivity | exact Hnd].
Qed.

Lemma drop_channels_Ok names raw :
  Forall (fun n => n ∈ ch_names raw) names ->
  drop_channels names raw =
  Ok (mkRaw (filter (fun c => ch_name c ∉ names) (chs raw))
            (ref_scheme raw)).
Proof.
  intros Hall. unfold drop_channels.
  replace (filter (fun n => n ∉ ch_names raw) names) with (@nil string);
    [reflexivity|].
  symmetry. apply filter_nil_Forall.
  eapply Forall_impl; [exact Hall|]. intros n Hn Hnot. now apply Hnot.
Qed.

Lemma drop_channels_Raise names raw :
  ~ Forall (fun n => n ∈ ch_names raw) names ->
  exists n missing,
    filter (fun n => n ∉ ch_names raw) names = n :: missing /\
    drop_channels names raw = Raise (MissingChannels (n :: missing)).
Proof.
  intros Hnot. unfold drop_channels.
  destruct (filter (fun n => n ∉ ch_names raw) names) as [|n missing] eqn:Hf.
  - exfalso. apply Hnot. apply filter_nil_Forall in Hf.
    eapply Forall_impl; [exact Hf|]. intros n Hn. simpl in Hn.
    destruct (decide (n ∈ ch_names raw)); tauto.
  - now exists n, missing.
Qed.

Lemma drop_channels_names names raw raw' :
  drop_channels names raw = Ok raw' ->
  ch_names raw' = filter (fun n => n ∉ names) (ch_names raw).
Proof.
  unfold drop_channels.
  destruct (filter (fun n => n ∉ ch_names raw) names); [|discriminate].
  intros [= <-]. apply filter_fmap_names.
Qed.

Lemma length_filter_ne (x : string) (l : list string) :
  NoDup l -> x ∈ l -> length (filter (fun y => y ≠ x) l) + 1 = length l.
Proof.
  induction 1 as [|y l Hy Hnd IH]; [by intros ?%elem_of_nil|].
  rewrite filter_cons. intros [->|Hin]%elem_of_cons.
  - case_decide; [congruence|]. simpl.
    rewrite filter_Forall_id; [lia|].
    apply Forall_forall. intros z Hz ->. contradiction.
  - case_decide; [|subst; contradiction]. simpl. rewrite <- IH by exact Hin.
    lia.
Qed.

End ChannelFacts.

Section ChannelClaims.

Context {signal position : Type}.
Implicit Types (raw : Raw signal position) (c : Channel signal position).

Lemma filter_two (a b : string) (l : list string) :
  filter (fun n => n ∉ [a; b]) l =
  filter (fun n => n ≠ b) (filter (fun n => n ≠ a) l).
Proof.
  rewrite list_filter_filter. apply list_filter_iff. intros n.
  rewrite !not_elem_of_cons. pose proof (not_elem_of_nil n). tauto.
Qed.

Lemma length_filter_two (a b : string) (l : list string) :
  a ≠ b -> NoDup l -> a ∈ l -> b ∈ l ->
  length (filter (fun n => n ∉ [a; b]) l) + 2 = length l.
Proof.
  intros Hab Hnd Ha Hb. rewrite filter_two.
  pose proof (length_filter_ne a l Hnd Ha) as H1.
  assert (length (filter (fun n => n ≠ b) (filter (fun n => n ≠ a) l)) + 1
          = length (filter (fun n => n ≠ a) l)) as H2.
  { apply length_filter_ne; [now apply NoDup_filter|].
    apply list_elem_of_filter. split; [congruence | exact Hb]. }
  lia.
Qed.

(** C2: on a recording whose labels are a set (no label twice) that
    contains both "T9" and "T10", the drop step succeeds; the resulting
    channel set contains neither "T9" nor "T10", has exactly two channels
    fewer, and every channel with another label is still there, in the
    order it had. *)
Theorem drop_removes_exactly_T9_T10 raw :
  NoDup (ch_names raw) -> "T9" ∈ ch_names raw -> "T10" ∈ ch_names raw ->
  exists raw',
    drop_channels ["T9"; "T10"] raw = Ok raw' /\
    ("T9" ∉ ch_names raw') /\ ("T10" ∉ ch_names raw') /\
    length (chs raw') + 2 = length (chs raw) /\
    (forall c, c ∈ chs raw -> ch_name c ≠ "T9" -> ch_name c ≠ "T10" ->
               c ∈ chs raw') /\
    chs raw' `sublist_of` chs raw.
Proof.
  intros Hnd H9 H10.
  eexists. split.
  { apply drop_channels_Ok. repeat constructor; assumption. }
  unfold ch_names in *. cbn [chs]. rewrite filter_fmap_names.
  repeat split.
  - intros [Hn _]%list_elem_of_filter. apply Hn. repeat constructor.
  - intros [Hn _]%list_elem_of_filter. apply Hn. repeat constructor.
  - rewrite <- (length_fmap ch_name), filter_fmap_names.
    rewrite <- (length_fmap ch_name (chs raw)).
    apply length_filter_two; [discriminate | assumption..].
  - intros c Hc Hn9 Hn10. apply list_elem_of_filter. split; [|exact Hc].
    rewrite !not_elem_of_cons. pose proof (not_elem_of_nil (ch_name c)).
    tauto.
  - apply sublist_filter.
Qed.

(** C4: after a rename step that went through, no channel name ends with
    the character ".". *)
Theorem renamed_labels_have_no_trailing_dot raw raw' :
  rename_channels rename_mapping raw = Ok raw' ->
  Forall (fun n => ends_with_dot n = false) (ch_names raw').
Proof.
  intros [-> _]%rename_channels_Ok.
  apply Forall_fmap, Forall_forall. intros n _. apply strip_ends.
Qed.

End ChannelClaims.

Lemma drop_removes_exactly_T9_T10_witness :
  exists raw',
    drop_channels ["T9"; "T10"] Example.renamed = Ok raw' /\
    ("T9" ∉ ch_names raw') /\ ("T10" ∉ ch_names raw') /\
    length (chs raw') + 2 = length (chs Example.renamed) /\
    (forall c, c ∈ chs Example.renamed ->
               ch_name c ≠ "T9" -> ch_name c ≠ "T10" -> c ∈ chs raw') /\
    chs raw' `sublist_of` chs Example.renamed.
Proof.
  apply (drop_removes_exactly_T9_T10 Example.renamed).
  - compute_done.
  - compute_done.
  - compute_done.
Defined.

Lemma renamed_labels_have_no_trailing_dot_witness :
  rename_channels rename_mapping Example.recording = Ok Example.renamed /\
  Forall (fun n => ends_with_dot n = false) (ch_names Example.renamed).
Proof.
  split; [reflexivity|].
  apply (renamed_labels_have_no_trailing_dot Example.recording). reflexivity.
Defined.

(** ** Letter case *)

Section CaseFacts.

Lemma in_all_ascii (a : ascii) : In a all_ascii.
Proof.
  change all_ascii with (map ascii_of_nat (seq 0 256)).
  rewrite <- (ascii_nat_embedding a). apply in_map, in_seq.
  pose proof (nat_ascii_bounded a). lia.
Qed.

Lemma forall_ascii (P : ascii -> bool) :
  forallb P all_ascii = true -> forall a, P a = true.
Proof.
  intros Hall a. rewrite forallb_forall in Hall. apply Hall, in_all_ascii.
Qed.

(** [lower_char] moves each capital of the table to its small letter and
    nothing else. *)
Lemma lower_char_pairs (c : ascii) :
  lower_char c =
  match find (fun p => Ascii.eqb c (fst p)) Spec.letter_pairs with
  | Some p => snd p
  | None => c
  end.
Proof.
  apply Ascii.eqb_eq. revert c. apply forall_ascii. vm_compute. reflexivity.
Qed.

Lemma lower_char_same_letter (a b : ascii) :
  Ascii.eqb (lower_char a) (lower_char b) = Spec.same_letter a b.
Proof.
  apply eqb_prop. revert b. apply forall_ascii. revert a.
  apply (forall_ascii
           (fun a => forallb
                       (fun b => eqb (Ascii.eqb (lower_char a) (lower_char b))
                                     (Spec.same_letter a b))
                       all_ascii)).
  vm_compute. reflexivity.
Qed.

Lemma lower_eq_iff (a b : string) :
  lower a = lower b <-> Spec.same_up_to_case a b = true.
Proof.
  revert b. induction a as [|x a IH]; intros [|y b]; simpl;
    try (split; [discriminate | discriminate]); [tauto|].
  rewrite andb_true_iff, <- IH, <- lower_char_same_letter, Ascii.eqb_eq.
  split; [intros [= -> ->]; tauto | intros [-> ->]; reflexivity].
Qed.

Lemma lower_ne_iff (a b : string) :
  lower a ≠ lower b <-> Spec.same_up_to_case a b = false.
Proof. rewrite lower_eq_iff. apply not_true_iff_false. Qed.

Lemma distinct_up_to_case_NoDup (labels : list string) :
  Spec.distinct_up_to_case labels = true -> NoDup (lower <$> labels).
Proof.
  induction labels as [|l rest IH]; simpl; [intros _; constructor|].
  intros [Hl Hrest]%andb_true_iff. constructor; [|now apply IH].
  intros (l' & Heq & Hin)%list_elem_of_fmap.
  rewrite forallb_forall in Hl.
  specialize (Hl l' (proj1 (list_elem_of_In _ _) Hin)).
  apply lower_eq_iff in Heq. rewrite Heq in Hl. discriminate.
Qed.

End CaseFacts.

(** ** Montage assignment *)

Section MontageFacts.

Context {signal position : Type}.
Implicit Types (raw : Raw signal position) (c : Channel signal position).
Implicit Types (m : Montage position).

Lemma find_position_None m name :
  find_position false m name = None <->
  forall label, label ∈ montage_names m -> lower label ≠ lower name.
Proof.
  induction m as [|[label0 pos0] m IH]; simpl.
  - split; [|reflexivity]. intros _ label Hin. now apply elem_of_nil in Hin.
  - case_bool_decide as Heq.
    + split; [discriminate|]. intros Hall. exfalso.
      apply (Hall label0); [apply list_elem_of_here | exact Heq].
    + rewrite IH. split.
      * intros Hall label [->|Hin]%elem_of_cons; auto.
      * intros Hall label Hin. apply Hall. now apply list_elem_of_further.
Qed.

Lemma find_position_unique m name label pos :
  NoDup (lower <$> montage_names m) -> (label, pos) ∈ m ->
  lower label = lower name -> find_position false m name = Some pos.
Proof.
  induction m as [|[label0 pos0] m IH]; simpl.
  - intros _ Hin. now apply elem_of_nil in Hin.
  - intros [Hfresh Hnd]%NoDup_cons [Heq|Hin]%elem_of_cons Hlow.
    + injection Heq as -> ->. now rewrite bool_decide_eq_true_2.
    + case_bool_decide as Hl0; [|now apply IH].
      exfalso. apply Hfresh. rewrite Hl0, <- Hlow.
      apply list_elem_of_fmap_2. unfold montage_names.
      now apply (list_elem_of_fmap_2 fst) in Hin.
Qed.

Lemma set_montage_inv m match_case raw raw' :
  set_montage m match_case raw = Ok raw' ->
  Forall (fun n => find_position match_case m n ≠ None) (ch_names raw) /\
  raw' = mkRaw ((fun c =>
                   match find_position match_case m (ch_name c) with
                   | Some pos => set_loc pos c
                   | None => c
                   end) <$> chs raw)
               (ref_scheme raw).
Proof.
  unfold set_montage.
  destruct (filter _ (ch_names raw)) as [|n unmatched] eqn:Hf; [|discriminate].
  intros [= <-]. split; [|reflexivity]. now apply filter_nil_Forall in Hf.
Qed.

Lemma set_montage_names m match_case raw raw' :
  set_montage m match_case raw = Ok raw' -> ch_names raw' = ch_names raw.
Proof.
  intros [_ ->]%set_montage_inv. unfold ch_names. cbn [chs].
  rewrite <- list_fmap_compose. apply list_fmap_ext. intros _ c _. simpl.
  now destruct (find_position match_case m (ch_name c)).
Qed.

End MontageFacts.

(** ** Running the script *)

Section ScriptFacts.

Context {signal position : Type}.
Variable minus_average : list signal -> signal -> signal.
Variable files : string -> option (Raw signal position).
Variable catalog : string -> option (Montage position).

Implicit Types (r : Raw signal position) (env : Env signal position).
Implicit Types (prog pre post : list Stmt) (s : Stmt).

Local Abbreviation exec' := (exec minus_average files catalog).
Local Abbreviation run_from' := (run_from minus_average files catalog).
Local Abbreviation run' := (run minus_average files catalog).

Lemma bind_Ok {A B} (r : result A) (k : A -> result B) (b : B) :
  r ≫= k = Ok b -> exists a, r = Ok a /\ k a = Ok b.
Proof. destruct r as [a|e]; [eauto | discriminate]. Qed.

Lemma get_raw_Ok env r : get_raw env = Ok r -> raw env = Some r.
Proof. unfold get_raw. destruct (raw env); congruence. Qed.

Lemma run_from_cons_Finished pc s prog env env' :
  run_from' pc (s :: prog) env = Finished env' ->
  exists env1, exec' s env = Ok env1 /\
               run_from' (S pc) prog env1 = Finished env'.
Proof. simpl. destruct (exec' s env) as [env1|e]; [eauto | discriminate]. Qed.

Lemma run_from_app pc pre post env :
  run_from' pc (pre ++ post)%list env =
  match run_from' pc pre env with
  | Finished env' => run_from' (pc + length pre) post env'
  | Failed pc' e env' => Failed pc' e env'
  end.
Proof.
  revert pc env. induction pre as [|s pre IH]; intros pc env; simpl.
  - now rewrite Nat.add_0_r.
  - destruct (exec' s env) as [env1|e]; [|reflexivity].
    rewrite IH. now rewrite Nat.add_succ_r.
Qed.

Lemma set_eeg_reference_names r r' :
  set_eeg_reference minus_average r = Ok r' -> ch_names r' = ch_names r.
Proof.
  unfold set_eeg_reference. intros [= <-]. unfold ch_names. cbn [chs].
  rewrite <- list_fmap_compose. now apply list_fmap_ext.
Qed.

Lemma rename_channels_fixed mapping r :
  Forall (fun n => mapping n = n) (ch_names r) -> NoDup (ch_names r) ->
  rename_channels mapping r = Ok r.
Proof.
  intros Hfix Hnd. unfold rename_channels.
  assert (mapping <$> ch_names r = ch_names r) as Hnames.
  { rewrite <- (list_fmap_id (ch_names r)) at 2.
    apply list_fmap_ext. intros i n Hn. rewrite Forall_forall in Hfix.
    apply Hfix. eapply list_elem_of_lookup_2, Hn. }
  rewrite Hnames. rewrite decide_True by exact Hnd.
  destruct r as [l ref]. cbn [chs ref_scheme]. f_equal. f_equal.
  rewrite <- (list_fmap_id l) at 2. apply list_fmap_ext.
  intros i [n d p] Hc. unfold set_name. cbn. f_equal.
  rewrite Forall_forall in Hfix. apply Hfix.
  apply (list_elem_of_fmap_2 ch_name l _ (list_elem_of_lookup_2 _ _ _ Hc)).
Qed.

(** What a complete run leaves behind: both globals bound, and the labels
    of the recording are the stripped labels of the file without "T9" and
    "T10". *)
Lemma script_Finished env :
  run' script initial = Finished env ->
  exists r m names,
    env = mkEnv (Some r) (Some m) /\
    NoDup (rename_mapping <$> names) /\
    ch_names r =
    filter (fun n => n ∉ ["T9"; "T10"]) (rename_mapping <$> names).
Proof.
  unfold run, script. intros H.
  apply run_from_cons_Finished in H as (e1 & H1 & H).
  apply run_from_cons_Finished in H as (e2 & H2 & H).
  apply run_from_cons_Finished in H as (e3 & H3 & H).
  apply run_from_cons_Finished in H as (e4 & H4 & H).
  apply run_from_cons_Finished in H as (e5 & H5 & H).
  apply run_from_cons_Finished in H as (e6 & H6 & H).
  injection H as <-.
  apply bind_Ok in H1 as (r0 & _ & [= <-]).
  apply bind_Ok in H2 as (r0' & [= <-]%get_raw_Ok & H2).
  apply bind_Ok in H2 as (r1 & Hren & [= <-]).
  apply bind_Ok in H3 as (m & _ & [= <-]).
  apply bind_Ok in H4 as (r1' & [= <-]%get_raw_Ok & H4).
  apply bind_Ok in H4 as (r2 & Hdrop & [= <-]).
  apply bind_Ok in H5 as (r2' & [= <-]%get_raw_Ok & H5).
  apply bind_Ok in H5 as (m' & Hm & H5). injection Hm as <-.
  apply bind_Ok in H5 as (r3 & Hmont & [= <-]).
  apply bind_Ok in H6 as (r3' & [= <-]%get_raw_Ok & H6).
  apply bind_Ok in H6 as (r4 & Href & [= <-]).
  exists r4, m, (ch_names r0). cbn [montage]. split; [reflexivity|].
  apply rename_channels_Ok in Hren as [Hn1 Hnd]. rewrite <- Hn1.
  split; [exact Hnd|].
  rewrite (set_eeg_reference_names _ _ Href).
  rewrite (set_montage_names _ _ _ _ Hmont).
  apply (drop_channels_names _ _ _ Hdrop).
Qed.

End ScriptFacts.

Section ScriptClaims.

Context {signal position : Type}.
Variable minus_average : list signal -> signal -> signal.
Variable files : string -> option (Raw signal position).
Variable catalog : string -> option (Montage position).

Implicit Types (r : Raw signal position) (env : Env signal position).
Implicit Types (prog pre post : list Stmt) (s : Stmt).

Local Abbreviation exec' := (exec minus_average files catalog).
Local Abbreviation run_from' := (run_from minus_average files catalog).
Local Abbreviation run' := (run minus_average files catalog).

Lemma run_from_cons pc s prog env :
  run_from' pc (s :: prog) env =
  match exec' s env with
  | Ok env' => run_from' (S pc) prog env'
  | Raise e => Failed pc e env
  end.
Proof. reflexivity. Qed.

Lemma bind_Ok_l {A B} (a : A) (k : A -> result B) : Ok a ≫= k = k a.
Proof. reflexivity. Qed.

Lemma exec_RenameChannels mapping env r :
  raw env = Some r ->
  exec' (RenameChannels mapping) env =
  r' ← rename_channels mapping r; Ok (mkEnv (Some r') (montage env)).
Proof. intros Hr. unfold exec, get_raw. now rewrite Hr. Qed.

Lemma exec_DropChannels names env r :
  raw env = Some r ->
  exec' (DropChannels names) env =
  r' ← drop_channels names r; Ok (mkEnv (Some r') (montage env)).
Proof. intros Hr. unfold exec, get_raw. now rewrite Hr. Qed.

(** C5: the drop step goes through when both "T9" and "T10" are among the
    channel labels; when either is absent it raises, and the run of the
    script ends there with that exception, no statement handling it. *)
Theorem drop_step_fails_iff_absent env r pc post :
  raw env = Some r ->
  ("T9" ∈ ch_names r /\ "T10" ∈ ch_names r ->
   exists r',
     drop_channels ["T9"; "T10"] r = Ok r' /\
     exec' (DropChannels ["T9"; "T10"]) env =
     Ok (mkEnv (Some r') (montage env))) /\
  ("T9" ∉ ch_names r \/ "T10" ∉ ch_names r ->
   exists missing,
     missing ≠ [] /\
     drop_channels ["T9"; "T10"] r = Raise (MissingChannels missing) /\
     run_from' pc (DropChannels ["T9"; "T10"] :: post) env =
     Failed pc (MissingChannels missing) env).
Proof.
  intros Hr. split.
  - intros [H9 H10]. eexists. split.
    + apply drop_channels_Ok. repeat constructor; assumption.
    + rewrite (exec_DropChannels _ _ _ Hr).
      rewrite drop_channels_Ok by (repeat constructor; assumption).
      reflexivity.
  - intros Habsent.
    destruct (drop_channels_Raise ["T9"; "T10"] r) as (n & rest & _ & Hd).
    { intros Hall. apply Forall_cons in Hall as [H9 Hall].
      apply Forall_cons in Hall as [H10 _]. tauto. }
    exists (n :: rest). split; [discriminate|]. split; [exact Hd|].
    rewrite run_from_cons, (exec_DropChannels _ _ _ Hr), Hd. reflexivity.
Qed.

(** C7: after a complete run, applying the statements that change the
    recording once more to the same object fails at the drop step: the
    rename step goes through and changes nothing, and "T9" and "T10" are
    no longer there to be dropped. *)
Theorem rerun_fails_at_drop env :
  run' script initial = Finished env ->
  run' mutations env = Failed 1 (MissingChannels ["T9"; "T10"]) env.
Proof.
  intros (r & m & names & -> & Hnd & Hnames)%script_Finished.
  assert (rename_channels rename_mapping r = Ok r) as Hren.
  { apply rename_channels_fixed.
    - rewrite Hnames. apply Forall_forall.
      intros n [_ (n0 & -> & _)%list_elem_of_fmap]%list_elem_of_filter.
      apply strip_strip.
    - rewrite Hnames. now apply NoDup_filter. }
  assert (drop_channels ["T9"; "T10"] r
          = Raise (MissingChannels ["T9"; "T10"])) as Hdrop.
  { unfold drop_channels.
    rewrite filter_Forall_id; [reflexivity|].
    repeat constructor; rewrite Hnames;
      intros [Hn _]%list_elem_of_filter; apply Hn; repeat constructor. }
  unfold run, mutations.
  set (env := mkEnv (Some r) (Some m)).
  rewrite run_from_cons, (exec_RenameChannels _ env r eq_refl), Hren.
  rewrite bind_Ok_l. fold env.
  rewrite run_from_cons, (exec_DropChannels _ env r eq_refl), Hdrop.
  reflexivity.
Qed.

(** C8: if a statement of the script raises, the run ends there: the
    outcome is that exception at that statement, with the globals as the
    completed statements before it left them, whatever statements
    follow. *)
Theorem failure_stops_the_script pre s post env e :
  script = (pre ++ s :: post)%list ->
  run' pre initial = Finished env -> exec' s env = Raise e ->
  run' script initial = Failed (length pre) e env /\
  forall post',
    run' (pre ++ s :: post')%list initial = Failed (length pre) e env.
Proof.
  intros Hscript Hpre Hs.
  assert (forall post',
             run' (pre ++ s :: post')%list initial
             = Failed (length pre) e env) as Hany.
  { intros post'. unfold run in *.
    rewrite run_from_app, Hpre, run_from_cons, Hs. reflexivity. }
  split; [|exact Hany]. rewrite Hscript. apply Hany.
Qed.

End ScriptClaims.

Lemma drop_step_fails_iff_absent_witness :
  raw Example.before_drop
  = Some (mkRaw [Example.channel "Fc5"; Example.channel "Cz";
                 Example.channel "T9"] OriginalReference) /\
  exists missing,
    missing ≠ [] /\
    drop_channels ["T9"; "T10"]
      (mkRaw [Example.channel "Fc5"; Example.channel "Cz";
              Example.channel "T9"] OriginalReference)
    = Raise (MissingChannels missing) /\
    run_from Example.minus_average Example.short_files Example.catalog 3
      [DropChannels ["T9"; "T10"]; SetMontage false; SetEegReference]
      Example.before_drop
    = Failed 3 (MissingChannels missing) Example.before_drop.
Proof.
  split; [reflexivity|].
  apply (drop_step_fails_iff_absent
           Example.minus_average Example.short_files Example.catalog
           Example.before_drop _ 3 [SetMontage false; SetEegReference]
           eq_refl).
  right. compute_done.
Defined.

Lemma rerun_fails_at_drop_witness :
  run Example.minus_average Example.files Example.catalog script initial
  = Finished Example.final /\
  run Example.minus_average Example.files Example.catalog mutations
    Example.final
  = Failed 1 (MissingChannels ["T9"; "T10"]) Example.final.
Proof.
  split; [reflexivity|].
  apply (rerun_fails_at_drop
           Example.minus_average Example.files Example.catalog Example.final).
  reflexivity.
Defined.

Lemma failure_stops_the_script_witness :
  run Example.minus_average Example.short_files Example.catalog script initial
  = Failed 3 (MissingChannels ["T10"]) Example.before_drop.
Proof.
  apply (failure_stops_the_script
           Example.minus_average Example.short_files Example.catalog
           [ReadRawEdf "S001R04.edf"; RenameChannels rename_mapping;
            MakeStandardMontage "easycap-M1"]
           (DropChannels ["T9"; "T10"])
           [SetMontage false; SetEegReference]
           Example.before_drop (MissingChannels ["T10"]));
    reflexivity.
Defined.

(** ** What the renaming function cuts off *)

Section EndDots.

Import PyStr.

Lemma contains_dot_eq c : contains "." c = true -> c = "."%char.
Proof.
  simpl. rewrite orb_false_r. apply Ascii.eqb_eq.
Qed.

Lemma string_app_cons c (s t : string) : String c s ++ t = String c (s ++ t).
Proof. reflexivity. Qed.

Lemma string_app_nil_l (t : string) : "" ++ t = t.
Proof. reflexivity. Qed.

Lemma string_length_app (s t : string) :
  String.length (s ++ t) = String.length s + String.length t.
Proof.
  induction s as [|c s IH]; [reflexivity|].
  rewrite string_app_cons. simpl. now rewrite IH.
Qed.

Lemma string_app_nil_r (s : string) : s ++ "" = s.
Proof.
  induction s as [|c s IH]; [reflexivity|].
  now rewrite string_app_cons, IH.
Qed.

Lemma string_app_assoc (s t u : string) : s ++ t ++ u = (s ++ t) ++ u.
Proof.
  induction s as [|c s IH]; [reflexivity|].
  now rewrite !string_app_cons, IH.
Qed.

Lemma length_dots k : String.length (dots k) = k.
Proof. induction k as [|k IH]; simpl; [reflexivity | now rewrite IH]. Qed.

Lemma dots_app n m : dots n ++ dots m = dots (n + m).
Proof.
  induction n as [|n IH]; [reflexivity|].
  cbn [dots Nat.add]. now rewrite string_app_cons, IH.
Qed.

Lemma lstrip_cut s : exists n, s = dots n ++ lstrip "." s.
Proof.
  induction s as [|c s [n IH]].
  - now exists 0.
  - cbn [lstrip]. destruct (contains "." c) eqn:Hc.
    + apply contains_dot_eq in Hc as ->. exists (S n).
      cbn [dots]. rewrite string_app_cons. now f_equal.
    + now exists 0.
Qed.

Lemma rstrip_cut s : exists m, s = rstrip "." s ++ dots m.
Proof.
  induction s as [|c s [m IH]].
  - now exists 0.
  - cbn [rstrip]. destruct (rstrip "." s) as [|d kept] eqn:Hr.
    + rewrite string_app_nil_l in IH. destruct (contains "." c) eqn:Hc.
      * apply contains_dot_eq in Hc as ->. exists (S m).
        rewrite string_app_nil_l. cbn [dots]. now f_equal.
      * exists m. rewrite string_app_cons, string_app_nil_l. now f_equal.
    + exists m. rewrite string_app_cons. now f_equal.
Qed.

Lemma strip_cut s : exists n m, s = dots n ++ strip "." s ++ dots m.
Proof.
  destruct (lstrip_cut s) as [n Hn].
  destruct (rstrip_cut (lstrip "." s)) as [m Hm].
  exists n, m. unfold strip. now rewrite <- Hm.
Qed.

Lemma lstrip_app_dots s m :
  lstrip "." (s ++ dots m) =
  match lstrip "." s with
  | EmptyString => EmptyString
  | String _ _ as kept => kept ++ dots m
  end.
Proof.
  induction s as [|c s IH].
  - apply lstrip_only_dots.
  - rewrite string_app_cons. cbn [lstrip].
    destruct (contains "." c); [exact IH | reflexivity].
Qed.

Lemma strip_end_dots n m s :
  strip "." (dots n ++ s ++ dots m) = strip "." s.
Proof.
  unfold strip. rewrite lstrip_dots, lstrip_app_dots.
  destruct (lstrip "." s) as [|c kept]; [reflexivity|].
  apply rstrip_dots.
Qed.

Lemma strip_fixed_inv s :
  strip "." s = s -> starts_in "." s = false /\ ends_in "." s = false.
Proof.
  intros Hfix. rewrite <- Hfix. split; [apply strip_starts | apply strip_ends].
Qed.

Lemma rstrip_lstrip chars s :
  rstrip chars (lstrip chars s) = lstrip chars (rstrip chars s).
Proof.
  induction s as [|c s IH]; [reflexivity|].
  destruct (contains chars c) eqn:Hc.
  - cbn [lstrip rstrip]. rewrite Hc, IH.
    destruct (rstrip chars s) as [|d kept]; [reflexivity|].
    cbn [lstrip]. now rewrite Hc.
  - rewrite (lstrip_fixed chars (String c s)) by exact Hc.
    symmetry. apply lstrip_fixed, rstrip_starts. exact Hc.
Qed.

End EndDots.

(** X1: the renaming function removes nothing but dots, and only at the two
    ends: every label is its image with some dots before it and some dots
    after it. *)
Theorem rename_mapping_only_cuts_end_dots (s : string) :
  exists n m, s = dots n ++ rename_mapping s ++ dots m.
Proof. apply strip_cut. Qed.

(** X2: dots at the ends of a label make no difference to its image, so
    labels that differ only in such dots are renamed to the same label. *)
Theorem rename_mapping_ignores_end_dots (n m : nat) (s : string) :
  rename_mapping (dots n ++ s ++ dots m) = rename_mapping s.
Proof. apply strip_end_dots. Qed.

(** X3: the labels the renaming function leaves unchanged are exactly those
    with no dot at either end. *)
Theorem rename_mapping_fixed_iff (s : string) :
  rename_mapping s = s <->
  starts_with_dot s = false /\ ends_with_dot s = false.
Proof.
  split.
  - apply strip_fixed_inv.
  - intros [Hs He]. now apply strip_fixed.
Qed.

(** X4: the image of a label is the empty string exactly when the label
    consists of dots only (the empty label included). *)
Theorem rename_mapping_empty_iff (s : string) :
  rename_mapping s = "" <-> s = dots (String.length s).
Proof.
  split.
  - intros Hnil. destruct (strip_cut s) as (n & m & Hs).
    fold (rename_mapping s) in Hs. rewrite Hnil, string_app_nil_l in Hs.
    rewrite dots_app in Hs. rewrite Hs at 2. now rewrite length_dots.
  - intros ->. unfold rename_mapping, PyStr.strip.
    now rewrite lstrip_only_dots.
Qed.

(** X5: renaming never makes a label longer, and it keeps the length only
    of the labels it leaves unchanged. *)
Theorem rename_mapping_never_longer (s : string) :
  String.length (rename_mapping s) <= String.length s /\
  (String.length (rename_mapping s) = String.length s <->
   rename_mapping s = s).
Proof.
  destruct (strip_cut s) as (n & m & Hs). fold (rename_mapping s) in Hs.
  assert (String.length s = n + (String.length (rename_mapping s) + m)) as Hl.
  { rewrite Hs at 1. now rewrite !string_length_app, !length_dots. }
  split; [lia|]. split.
  - intros Heq. assert (n = 0 /\ m = 0) as [-> ->] by lia.
    cbn [dots] in Hs. rewrite string_app_nil_l, string_app_nil_r in Hs.
    now symmetry.
  - now intros ->.
Qed.

(** X6: the order of the two cuts does not matter: cutting the leading dots
    first, as [strip] does, gives what cutting the trailing dots first
    gives. *)
Theorem rename_mapping_order_free (s : string) :
  rename_mapping s = PyStr.lstrip "." (PyStr.rstrip "." s).
Proof. apply rstrip_lstrip. Qed.

(** X9: two labels are renamed to the same label exactly when they differ
    only in dots at their ends, that is, when putting dots around the one
    and around the other can give the same string. *)
Theorem rename_mapping_collide_iff (s t : string) :
  rename_mapping s = rename_mapping t <->
  exists n m n' m', dots n ++ s ++ dots m = dots n' ++ t ++ dots m'.
Proof.
  split.
  - intros Heq.
    destruct (strip_cut s) as (a & b & Hs).
    destruct (strip_cut t) as (a' & b' & Ht).
    fold (rename_mapping s) in Hs. fold (rename_mapping t) in Ht.
    rewrite <- Heq in Ht. exists a', b', a, b.
    rewrite Hs at 1. rewrite Ht at 1.
    rewrite !string_app_assoc, !dots_app.
    rewrite <- !string_app_assoc, !dots_app.
    now rewrite (Nat.add_comm a' a), (Nat.add_comm b b').
  - intros (n & m & n' & m' & Heq).
    unfold rename_mapping.
    rewrite <- (strip_end_dots n m s), <- (strip_end_dots n' m' t).
    now rewrite Heq.
Qed.

(** ** The globals of the script *)

Section ScriptGlobals.

Context {signal position : Type}.
Variable minus_average : list signal -> signal -> signal.
Variable files : string -> option (Raw signal position).
Variable catalog : string -> option (Montage position).

Implicit Types (r : Raw signal position) (env : Env signal position).
Implicit Types (m : Montage position).

Local Abbreviation exec' := (exec minus_average files catalog).
Local Abbreviation run_from' := (run_from minus_average files catalog).
Local Abbreviation run' := (run minus_average files catalog).

Lemma bind_Raise_l {A B} (e : Error) (k : A -> result B) :
  Raise e ≫= k = Raise e.
Proof. reflexivity. Qed.

Lemma exec_ReadRawEdf fname env :
  exec' (ReadRawEdf fname) env =
  match files fname with
  | Some r => Ok (mkEnv (Some r) (montage env))
  | None => Raise (ReadError fname)
  end.
Proof. unfold exec, read_raw_edf. now destruct (files fname). Qed.

Lemma exec_MakeStandardMontage kind env :
  exec' (MakeStandardMontage kind) env =
  match catalog kind with
  | Some m => Ok (mkEnv (raw env) (Some m))
  | None => Raise (UnknownMontage kind)
  end.
Proof. unfold exec, make_standard_montage. now destruct (catalog kind). Qed.

Lemma exec_SetMontage match_case env r m :
  raw env = Some r -> montage env = Some m ->
  exec' (SetMontage match_case) env =
  r' ← set_montage m match_case r; Ok (mkEnv (Some r') (montage env)).
Proof.
  intros Hr Hm. unfold exec, get_raw, get_montage. now rewrite Hr, Hm.
Qed.

Lemma exec_SetEegReference env r :
  raw env = Some r ->
  exists r', exec' SetEegReference env = Ok (mkEnv (Some r') (montage env)).
Proof.
  intros Hr. unfold exec, get_raw. rewrite Hr. eexists. reflexivity.
Qed.

Lemma rename_channels_Raise mapping r e :
  rename_channels mapping r = Raise e -> e = DuplicateNames.
Proof. unfold rename_channels. case_decide; congruence. Qed.

Lemma drop_channels_Raise_inv names r e :
  drop_channels names r = Raise e -> exists missing, e = MissingChannels missing.
Proof.
  unfold drop_channels. destruct (filter _ names); [discriminate|].
  intros [= <-]. eauto.
Qed.

Lemma set_montage_Raise m match_case r e :
  set_montage m match_case r = Raise e ->
  exists unmatched, e = UnmatchedChannels unmatched.
Proof.
  unfold set_montage. destruct (filter _ (ch_names r)); [discriminate|].
  intros [= <-]. eauto.
Qed.

(** Where a run of the script can stop, and what is bound there. *)
Lemma script_Failed pc e env :
  run' script initial = Failed pc e env ->
  (pc = 0 /\ env = mkEnv None None /\ e = ReadError "S001R04.edf") \/
  (pc = 1 /\ (exists r, env = mkEnv (Some r) None) /\ e = DuplicateNames) \/
  (pc = 2 /\ (exists r, env = mkEnv (Some r) None) /\
   e = UnknownMontage "easycap-M1") \/
  (pc = 3 /\ (exists r m, env = mkEnv (Some r) (Some m)) /\
   exists missing, e = MissingChannels missing) \/
  (pc = 4 /\ (exists r m, env = mkEnv (Some r) (Some m)) /\
   exists unmatched, e = UnmatchedChannels unmatched).
Proof.
  unfold run, script, initial.
  rewrite run_from_cons, exec_ReadRawEdf.
  destruct (files "S001R04.edf") as [r0|]; [|intros [= <- <- <-]; tauto].
  cbn [montage].
  rewrite run_from_cons, (exec_RenameChannels _ _ _ _ (mkEnv (Some r0) None) r0 eq_refl).
  destruct (rename_channels rename_mapping r0) as [r1|e1] eqn:H1;
    [rewrite bind_Ok_l | rewrite bind_Raise_l].
  2:{ intros [= <- <- <-]. apply rename_channels_Raise in H1. eauto 10. }
  cbn [montage]. rewrite run_from_cons, exec_MakeStandardMontage.
  destruct (catalog "easycap-M1") as [m|]; [|intros [= <- <- <-]; eauto 10].
  cbn [raw].
  rewrite run_from_cons,
    (exec_DropChannels _ _ _ _ (mkEnv (Some r1) (Some m)) r1 eq_refl).
  destruct (drop_channels ["T9"; "T10"] r1) as [r2|e2] eqn:H2;
    [rewrite bind_Ok_l | rewrite bind_Raise_l].
  2:{ intros [= <- <- <-]. apply drop_channels_Raise_inv in H2. eauto 10. }
  cbn [montage].
  rewrite run_from_cons,
    (exec_SetMontage _ (mkEnv (Some r2) (Some m)) r2 m eq_refl eq_refl).
  destruct (set_montage m false r2) as [r3|e3] eqn:H3;
    [rewrite bind_Ok_l | rewrite bind_Raise_l].
  2:{ intros [= <- <- <-]. apply set_montage_Raise in H3.
      do 4 right. eauto 10. }
  cbn [montage]. rewrite run_from_cons.
  destruct (exec_SetEegReference (mkEnv (Some r3) (Some m)) r3 eq_refl)
    as [r4 ->].
  discriminate.
Qed.

(** X7: the script never fails on an unbound name: [raw] and [montage] are
    assigned before every statement that reads them, so whatever the file
    system and the catalog hold, a failing run ends with an exception of a
    library call and not with a [NameError]. *)
Theorem script_never_NameError pc e env :
  run' script initial = Failed pc e env -> forall var, e <> NameError var.
Proof.
  intros Hfail var. apply script_Failed in Hfail.
  destruct Hfail as [H|[H|[H|[H|H]]]].
  - destruct H as (_ & _ & ->). discriminate.
  - destruct H as (_ & _ & ->). discriminate.
  - destruct H as (_ & _ & ->). discriminate.
  - destruct H as (_ & _ & missing & ->). discriminate.
  - destruct H as (_ & _ & unmatched & ->). discriminate.
Qed.


End ScriptGlobals.

Lemma script_never_NameError_witness :
  run Example.minus_average Example.short_files Example.catalog script initial
  = Failed 3 (MissingChannels ["T10"]) Example.before_drop /\
  MissingChannels ["T10"] <> NameError "raw".
Proof.
  split; [reflexivity|].
  apply (script_never_NameError
           Example.minus_average Example.short_files Example.catalog
           3 (MissingChannels ["T10"]) Example.before_drop).
  reflexivity.
Defined.


(** ** Montage assignment without regard to letter case *)

Section MontageClaim.

Context {signal position : Type}.
Variable minus_average : list signal -> signal -> signal.
Variable files : string -> option (Raw signal position).
Variable catalog : string -> option (Montage position).

Implicit Types (r : Raw signal position) (env : Env signal position).
Implicit Types (c : Channel signal position) (m : Montage position).

Local Abbreviation exec' := (exec minus_average files catalog).
Local Abbreviation run_from' := (run_from minus_average files catalog).

Lemma find_position_no_entry m name :
  find_position false m name = None <->
  forall label, label ∈ montage_names m ->
                Spec.same_up_to_case name label = false.
Proof.
  rewrite find_position_None. split; intros Hall label Hin.
  - apply lower_ne_iff. intros Heq. now apply (Hall label Hin).
  - intros Heq. apply (proj2 (lower_ne_iff name label)); auto.
Qed.

Lemma find_position_entry m name label pos :
  Spec.distinct_up_to_case (montage_names m) = true -> (label, pos) ∈ m ->
  Spec.same_up_to_case name label = true ->
  find_position false m name = Some pos.
Proof.
  intros Hd Hin Hsame. apply (find_position_unique m name label pos).
  - now apply distinct_up_to_case_NoDup.
  - exact Hin.
  - symmetry. now apply lower_eq_iff.
Qed.


End MontageClaim.

